(** * combine_images.py: a shallow embedding and its verified properties

    The script loads a screenshot and a logo, frames the screenshot in a
    rounded dark rectangle, pastes the scaled logo over the top right corner
    of the frame, crops the canvas to its content and pads it by 100 pixels,
    then saves the result as a PNG file.

    Layout of the development:
    - [Raster]: pixels, RGBA images and "L" masks as sizes plus a pixel
      function; the Pillow operations the script calls, as pure functions.
      What Pillow computes with floating point or with its own rasteriser
      (Lanczos resampling, the outline of a rounded rectangle, the rounding
      of the alpha blend) is an interface, class [Pillow], whose documented
      contract is class [PillowSpec].
    - [Py]: Python's mutable image objects in a store, with exceptions and
      a trace of the external events (open, save, print).
    - the script itself: [add_rounded_corners] and [combine].
    - the properties. *)

From Stdlib Require Import ZArith List String Lia Bool.
From Stdlib Require SpecFloat.
From stdpp Require Import base tactics option list strings.

Local Open Scope Z_scope.

(** ** Pixels and rasters *)

Record pixel : Type := RGBA { red : Z; green : Z; blue : Z; alpha : Z }.

Definition transparent : pixel := RGBA 0 0 0 0.

Definition byte_range (v : Z) : Prop := 0 <= v <= 255.

Definition valid_pixel (p : pixel) : Prop :=
  byte_range (red p) /\ byte_range (green p) /\
  byte_range (blue p) /\ byte_range (alpha p).

(** An image of mode "RGBA": [width], [height] and the pixel at each
    position.  Only the positions inside the image are its content. *)
Record Image : Type := mkImage {
  width : Z;
  height : Z;
  getpixel : Z -> Z -> pixel
}.

(** An image of mode "L" (one band), used as a mask. *)
Record Mask : Type := mkMask {
  mask_width : Z;
  mask_height : Z;
  mask_at : Z -> Z -> Z
}.

Definition inside (w h x y : Z) : bool :=
  (0 <=? x) && (x <? w) && (0 <=? y) && (y <? h).

Definition im_inside (im : Image) (x y : Z) : bool :=
  inside (width im) (height im) x y.

Definition im_size (im : Image) : Z * Z := (width im, height im).

(** What a decoded image file is: at least one pixel, every band a byte. *)
Definition valid_image (im : Image) : Prop :=
  1 <= width im /\ 1 <= height im /\
  forall x y, im_inside im x y = true -> valid_pixel (getpixel im x y).

(** Same size, same content. *)
Definition im_equiv (a b : Image) : Prop :=
  width a = width b /\ height a = height b /\
  forall x y, im_inside a x y = true -> getpixel a x y = getpixel b x y.

(** ** The part of Pillow that the script relies on without fixing it *)

Class Pillow : Type := {
  (** [blend m d s]: one band of [paste] under mask value [m], destination
      [d] and source [s] (Pillow's BLEND macro). *)
  blend : Z -> Z -> Z -> Z;
  (** [rounded_rectangle_covers xy radius x y]: whether
      [ImageDraw.rounded_rectangle(xy, radius, fill=...)] paints (x, y). *)
  rounded_rectangle_covers : Z * Z * Z * Z -> Z -> Z -> Z -> bool;
  (** [resize im size]: [im.resize(size, Image.LANCZOS, reducing_gap=2.0)]. *)
  resize : Image -> Z * Z -> Image;
  (** [getbbox()] looks at the alpha band only (Pillow 10 and later) or at
      all four bands (before). *)
  getbbox_alpha_only : bool
}.

Class PillowSpec (P : Pillow) : Prop := {
  (** "Where the mask is 0, the current value is preserved." *)
  blend_0 : forall d s, byte_range d -> blend 0 d s = d;
  (** "Where the mask is 255, the given image is copied as is." *)
  blend_255 : forall d s, byte_range s -> blend 255 d s = s;
  (** "Intermediate values will mix the two images together." *)
  blend_between : forall m d s,
    byte_range m -> byte_range d -> byte_range s ->
    Z.min d s <= blend m d s <= Z.max d s;
  (** The middle of a rounded rectangle is painted. *)
  rounded_rectangle_centre : forall w h radius,
    2 <= w -> 2 <= h -> 0 <= radius ->
    rounded_rectangle_covers (0, 0, w, h) radius (w / 2) (h / 2) = true;
  (** Resampling returns an image of the requested size, with bytes in its
      bands, that depends on the content of its argument only. *)
  resize_size : forall im size, im_size (resize im size) = size;
  resize_valid : forall im size,
    valid_image im -> 1 <= size.1 -> 1 <= size.2 ->
    valid_image (resize im size);
  resize_equiv : forall a b size,
    im_equiv a b -> im_equiv (resize a size) (resize b size)
}.

Module Raster.
Section Raster.
Context {P : Pillow}.

(** [Image.new("RGBA", size, color)] *)
Definition im_new (size : Z * Z) (color : pixel) : Image :=
  mkImage size.1 size.2 (fun _ _ => color).

(** [Image.new("L", size, v)] *)
Definition mask_new (size : Z * Z) (v : Z) : Mask :=
  mkMask size.1 size.2 (fun _ _ => v).

(** [ImageDraw.Draw(im).rounded_rectangle(xy, radius, fill=fill)]: the
    painted pixels take [fill] (no blending when the drawing mode is the
    image's own), the others keep their value. *)
Definition im_rounded_rectangle (im : Image) (xy : Z * Z * Z * Z)
    (radius : Z) (fill : pixel) : Image :=
  mkImage (width im) (height im)
    (fun x y => if rounded_rectangle_covers xy radius x y then fill
                else getpixel im x y).

Definition mask_rounded_rectangle (m : Mask) (xy : Z * Z * Z * Z)
    (radius : Z) (fill : Z) : Mask :=
  mkMask (mask_width m) (mask_height m)
    (fun x y => if rounded_rectangle_covers xy radius x y then fill
                else mask_at m x y).

(** [im.putalpha(mask)]: the alpha band becomes the mask. *)
Definition im_putalpha (im : Image) (m : Mask) : Image :=
  mkImage (width im) (height im)
    (fun x y => let p := getpixel im x y in
                RGBA (red p) (green p) (blue p) (mask_at m x y)).

Definition blend_pixel (m : Z) (d s : pixel) : pixel :=
  RGBA (blend m (red d) (red s)) (blend m (green d) (green s))
       (blend m (blue d) (blue s)) (blend m (alpha d) (alpha s)).

(** [dst.paste(src, box, mask)] with a two-element [box] and an RGBA
    [mask] of the size of [src]: inside the box every band of [dst],
    alpha included, is blended with [src] under the alpha of [mask]. *)
Definition im_paste (dst src : Image) (box : Z * Z) (mask : Image) : Image :=
  mkImage (width dst) (height dst)
    (fun X Y =>
       let x := X - box.1 in
       let y := Y - box.2 in
       if im_inside src x y
       then blend_pixel (alpha (getpixel mask x y))
                        (getpixel dst X Y) (getpixel src x y)
       else getpixel dst X Y).

(** [im.crop((left, upper, right, lower))]; positions outside [im] read
    as zero. *)
Definition im_crop (im : Image) (box : Z * Z * Z * Z) : Image :=
  let '(l, u, r, d) := box in
  mkImage (r - l) (d - u)
    (fun x y => if im_inside im (x + l) (y + u)
                then getpixel im (x + l) (y + u) else transparent).

(** *** getbbox *)

Definition nonzero (p : pixel) : bool :=
  if getbbox_alpha_only then negb (alpha p =? 0)
  else negb ((red p =? 0) && (green p =? 0) &&
             (blue p =? 0) && (alpha p =? 0)).

(** First position in [start, start + n) where [p] holds. *)
Fixpoint first_from (p : Z -> bool) (start : Z) (n : nat) : option Z :=
  match n with
  | O => None
  | S n' => if p start then Some start else first_from p (start + 1) n'
  end.

(** Last position in [stop - n, stop) where [p] holds. *)
Fixpoint last_before (p : Z -> bool) (stop : Z) (n : nat) : option Z :=
  match n with
  | O => None
  | S n' => if p (stop - 1) then Some (stop - 1)
            else last_before p (stop - 1) n'
  end.

Definition row_has (im : Image) (y : Z) : bool :=
  match first_from (fun x => nonzero (getpixel im x y)) 0
                   (Z.to_nat (width im)) with
  | Some _ => true
  | None => false
  end.

Definition col_has (im : Image) (x : Z) : bool :=
  match first_from (fun y => nonzero (getpixel im x y)) 0
                   (Z.to_nat (height im)) with
  | Some _ => true
  | None => false
  end.

(** [im.getbbox()]: the box (left, upper, right, lower) of the non-zero
    region, right and lower excluded, or [None] for an empty image. *)
Definition im_getbbox (im : Image) : option (Z * Z * Z * Z) :=
  let w := Z.to_nat (width im) in
  let h := Z.to_nat (height im) in
  match first_from (col_has im) 0 w, first_from (row_has im) 0 h,
        last_before (col_has im) (width im) w,
        last_before (row_has im) (height im) h with
  | Some l, Some u, Some r, Some d => Some (l, u, r + 1, d + 1)
  | _, _, _, _ => None
  end.


(** *** thumbnail

    The size that [Image.thumbnail] resizes to, [None] when the image
    already fits:
<<
    def round_aspect(number, key):
        return max(min(math.floor(number), math.ceil(number), key=key), 1)
    x, y = provided_size
    if x >= self.width and y >= self.height: return None
    aspect = self.width / self.height
    if x / y >= aspect:
        x = round_aspect(y * aspect, key=lambda n: abs(aspect - n / y))
    else:
        y = round_aspect(x / aspect,
                         key=lambda n: 0 if n == 0 else abs(aspect - x / n))
    return x, y
>>
    Python's [/] on integers and its float arithmetic are IEEE 754 binary64,
    rounding to nearest even: the Standard Library's [SpecFloat] at
    precision 53 and maximal exponent 1024. *)
Definition b64 : Type := SpecFloat.spec_float.
Definition b64_of_Z (z : Z) : b64 := SpecFloat.binary_normalize 53 1024 z 0 false.
Definition b64_div : b64 -> b64 -> b64 := SpecFloat.SFdiv 53 1024.
Definition b64_mul : b64 -> b64 -> b64 := SpecFloat.SFmul 53 1024.
Definition b64_sub : b64 -> b64 -> b64 := SpecFloat.SFsub 53 1024.
Definition b64_abs : b64 -> b64 := SpecFloat.SFabs.
Definition b64_ltb : b64 -> b64 -> bool := SpecFloat.SFltb.
Definition b64_leb : b64 -> b64 -> bool := SpecFloat.SFleb.

(** [math.floor] and [math.ceil] of a finite binary64. *)
Definition b64_floor (f : b64) : Z :=
  match f with
  | SpecFloat.S754_finite s m e =>
      let v := if s then Z.neg m else Z.pos m in
      if 0 <=? e then v * 2 ^ e else v / 2 ^ (- e)
  | _ => 0
  end.

Definition b64_ceil (f : b64) : Z := - b64_floor (SpecFloat.SFopp f).

Definition floor_div (a b : Z) : Z := a / b.
Definition ceil_div (a b : Z) : Z := - ((- a) / b).

(** [max(min(lo, hi, key=key), 1)]: [min] keeps [lo] unless the key of
    [hi] is strictly smaller. *)
Definition round_aspect (lo hi : Z) (key : Z -> b64) : Z :=
  Z.max (if b64_ltb (key hi) (key lo) then hi else lo) 1.

(** The two keys, computed in binary64 as Pillow computes them. *)
Definition key_width (aspect : b64) (y n : Z) : b64 :=
  b64_abs (b64_sub aspect (b64_div (b64_of_Z n) (b64_of_Z y))).

Definition key_height (aspect : b64) (x n : Z) : b64 :=
  if n =? 0 then b64_of_Z 0
  else b64_abs (b64_sub aspect (b64_div (b64_of_Z x) (b64_of_Z n))).

(** The function above, word for word in binary64. *)
Definition preserve_aspect_ratio_binary64 (size box : Z * Z)
    : option (Z * Z) :=
  let '(w, h) := size in
  let '(x, y) := box in
  if (w <=? x) && (h <=? y) then None
  else
    let aspect := b64_div (b64_of_Z w) (b64_of_Z h) in
    if b64_leb aspect (b64_div (b64_of_Z x) (b64_of_Z y)) then
      let number := b64_mul (b64_of_Z y) aspect in
      Some (round_aspect (b64_floor number) (b64_ceil number)
                         (key_width aspect y), y)
    else
      let number := b64_div (b64_of_Z x) aspect in
      Some (x, round_aspect (b64_floor number) (b64_ceil number)
                            (key_height aspect x)).

(** The form that the proofs use.  The test [x / y >= aspect] and the two
    candidates [floor] and [ceil] of [y * aspect] (of [x / aspect]) are
    taken from the exact quotients; which of the two candidates wins is
    decided by the binary64 keys, as above, ties included.  For the sizes
    images have, the exact test and candidates are those of the binary64
    computation, except that a quotient that is a whole number may be
    rounded just off it, in which case the keys pick that whole number all
    the same; [thumbnail_binary64_*] below compare the two functions on
    ranges of sizes. *)
Definition preserve_aspect_ratio (size box : Z * Z) : option (Z * Z) :=
  let '(w, h) := size in
  let '(x, y) := box in
  if (w <=? x) && (h <=? y) then None
  else
    let aspect := b64_div (b64_of_Z w) (b64_of_Z h) in
    if w * y <=? x * h then
      Some (round_aspect (floor_div (y * w) h) (ceil_div (y * w) h)
                         (key_width aspect y), y)
    else
      Some (x, round_aspect (floor_div (x * h) w) (ceil_div (x * h) w)
                            (key_height aspect x)).

(** [im.thumbnail(size, Image.LANCZOS)], as a function of the old value
    of the object to its new value. *)
Definition im_thumbnail (im : Image) (box : Z * Z) : Image :=
  match preserve_aspect_ratio (im_size im) box with
  | None => im
  | Some final_size =>
      if decide (im_size im = final_size) then im
      else resize im final_size
  end.

End Raster.
End Raster.
Export Raster.

(** ** Python objects, exceptions and external events *)

Module Py.

(** An uncaught Python exception. *)
Inductive exn : Type := Exception (name : string).

Inductive result (A : Type) : Type :=
| Ok (a : A)
| Raise (e : exn).
Arguments Ok {A} a.
Arguments Raise {A} e.

(** What the process does to the file system and to standard output, in
    order.  What the Python runtime and Pillow write to standard error (the
    traceback of an uncaught exception, warnings such as Pillow's
    DecompressionBombWarning for an image of more than 89478485 pixels) is
    not part of the trace. *)
Inductive event : Type :=
| EvOpen (path : string)
| EvSave (path format : string) (im : Image)
| EvPrint (line : string).

(** An image object is a reference into the store: [copy] and [new]
    allocate, [paste], [putalpha], [thumbnail] and drawing update in
    place. *)
Definition ref : Type := nat.

Record state : Type := mkState {
  heap : list Image;
  trace : list event
}.

Definition initial : state := mkState [] [].

(** The outside world: what opening and decoding a path yields, and
    whether writing a path fails. *)
Record env : Type := mkEnv {
  fs_open : string -> exn + Image;
  fs_save : string -> string -> option exn
}.

Definition M (A : Type) : Type := env -> state -> result A * state.

Definition ret {A} (a : A) : M A := fun _ s => (Ok a, s).

(** Sequencing: an exception in the first part skips the rest. *)
Definition bind {A B} (m : M A) (k : A -> M B) : M B :=
  fun e s =>
    match m e s with
    | (Ok a, s') => k a e s'
    | (Raise x, s') => (Raise x, s')
    end.

#[global] Instance M_ret : MRet M := @ret.
#[global] Instance M_bind : MBind M := fun A B k m => bind m k.

Definition raise {A} (x : exn) : M A := fun _ s => (Raise x, s).

Definition emit (ev : event) : M unit :=
  fun _ s => (Ok tt, mkState (heap s) (trace s ++ [ev])).

Definition alloc (im : Image) : M ref :=
  fun _ s => (Ok (length (heap s)), mkState (heap s ++ [im]) (trace s)).

Definition load (r : ref) : M Image :=
  fun _ s =>
    match heap s !! r with
    | Some im => (Ok im, s)
    | None => (Raise (Exception "ReferenceError"), s)
    end.

Definition store (r : ref) (im : Image) : M unit :=
  fun _ s => (Ok tt, mkState (<[r := im]> (heap s)) (trace s)).

(** The two operations that ask the outside world. *)
Definition decode_file (path : string) : M Image :=
  fun e s =>
    match fs_open e path with
    | inl x => (Raise x, s)
    | inr im => (Ok im, s)
    end.

Definition write_file (path format : string) : M unit :=
  fun e s =>
    match fs_save e path format with
    | Some x => (Raise x, s)
    | None => (Ok tt, s)
    end.

Definition run {A} (m : M A) (e : env) (s : state) : result A * state :=
  m e s.


(** The images written out, in order. *)
Definition saved_images (tr : list event) : list Image :=
  flat_map (fun ev => match ev with
                      | EvSave _ _ im => [im]
                      | _ => []
                      end) tr.

(** The lines written to standard output, in order. *)
Definition printed (tr : list event) : list string :=
  flat_map (fun ev => match ev with
                      | EvPrint line => [line]
                      | _ => []
                      end) tr.


End Py.
Export Py.

(** ** The methods of Pillow's image objects *)

Section Methods.
Context {P : Pillow}.

(** [Image.open(path).convert("RGBA")]: the path is opened, then the
    outside world answers with the decoded image or with an exception (a
    missing file, a file that is no image, an image of more than
    2 * MAX_IMAGE_PIXELS = 178956970 pixels).  The warning that Pillow
    writes to standard error for an image of more than MAX_IMAGE_PIXELS
    pixels is not an event of the trace. *)
Definition Image_open (path : string) : M ref :=
  emit (EvOpen path);;
  im ← decode_file path;
  alloc im.

Definition Image_new (size : Z * Z) (color : pixel) : M ref :=
  alloc (im_new size color).

Definition Image_size (r : ref) : M (Z * Z) :=
  im ← load r; mret (im_size im).

(** [rounded_rectangle] refuses a negative radius with a ValueError,
    before it draws anything. *)
Definition check_radius (radius : Z) : M unit :=
  if radius <? 0 then raise (Exception "ValueError") else mret tt.

Definition ImageDraw_rounded_rectangle (r : ref) (xy : Z * Z * Z * Z)
    (radius : Z) (fill : pixel) : M unit :=
  check_radius radius;;
  im ← load r; store r (im_rounded_rectangle im xy radius fill).

(** The same call on a mask that is a local value. *)
Definition Mask_rounded_rectangle (m : Mask) (xy : Z * Z * Z * Z)
    (radius : Z) (fill : Z) : M Mask :=
  check_radius radius;;
  mret (mask_rounded_rectangle m xy radius fill).

Definition Image_putalpha (r : ref) (m : Mask) : M unit :=
  im ← load r; store r (im_putalpha im m).

Definition Image_paste (dst src : ref) (box : Z * Z) (mask : ref) : M unit :=
  d ← load dst; s ← load src; m ← load mask;
  store dst (im_paste d s box m).

Definition Image_copy (r : ref) : M ref :=
  im ← load r; alloc im.

Definition Image_thumbnail (r : ref) (size : Z * Z) : M unit :=
  im ← load r; store r (im_thumbnail im size).

Definition Image_getbbox (r : ref) : M (option (Z * Z * Z * Z)) :=
  im ← load r; mret (im_getbbox im).

(** [im.crop(box)].  Pillow checks the size of the box against
    MAX_IMAGE_PIXELS as it checks an opened image (a warning on standard
    error above it, DecompressionBombError above twice it); this check is
    left out, so the results on [combine] are about canvases whose
    bounding box stays below that limit. *)
Definition Image_crop (r : ref) (box : Z * Z * Z * Z) : M ref :=
  im ← load r; alloc (im_crop im box).

Definition Image_save (r : ref) (path format : string) : M unit :=
  im ← load r;
  emit (EvSave path format im);;
  write_file path format.

Definition print (line : string) : M unit := emit (EvPrint line).

End Methods.

(** ** The script *)

Section Script.
Context {P : Pillow}.

(** Lines 3-8.  The mask is local to the function and never shared, so it
    is a value; [img] is updated in place and returned.  A negative radius
    makes line 6 raise, before [img] is touched. *)
Definition add_rounded_corners (img : ref) (radius : Z) : M ref :=
  size ← Image_size img;
  let mask := mask_new size 0 in
  mask ← Mask_rounded_rectangle mask (0, 0, size.1, size.2) radius 255;
  Image_putalpha img mask;;
  mret img.

Definition screenshot_path : string := "media/raw_screenshot.png".
Definition logo_path : string := "media/logo.png".
Definition output_path : string :=
  "/Users/filipstrand/Desktop/combined_transparent.png".

(** Lines 15-33: the rounded frame around the screenshot [a]. *)
Definition make_frame (a : ref) : M ref :=
  let bg_color := RGBA 20 20 20 255 in
  let padding_x := 40 in
  let padding_top := 40 in
  let padding_bottom := 40 in
  a_size ← Image_size a;
  let frame_size := (a_size.1 + padding_x * 2,
                     a_size.2 + padding_top + padding_bottom) in
  frame ← Image_new frame_size transparent;
  let frame_radius := 60 in
  ImageDraw_rounded_rectangle frame (0, 0, frame_size.1, frame_size.2)
                              frame_radius bg_color;;
  a_rounded ← add_rounded_corners a 10;
  Image_paste frame a_rounded (padding_x, padding_top) a_rounded;;
  mret frame.

(** Lines 35-37: the scaled logo. *)
Definition scale_logo (logo : ref) : M ref :=
  logo_scaled ← Image_copy logo;
  Image_thumbnail logo_scaled (650, 650);;
  mret logo_scaled.

(** Lines 39-58: the canvas with the frame and the logo on it. *)
Definition make_canvas (frame logo_scaled : ref) : M ref :=
  let canvas_padding := 200 in
  logo_size ← Image_size logo_scaled;
  let logo_overlap_x := logo_size.1 / 2 in
  let logo_overlap_y := logo_size.2 / 2 in
  frame_size ← Image_size frame;
  let total_width := frame_size.1 + logo_overlap_x + canvas_padding * 2 in
  let total_height := frame_size.2 + logo_overlap_y + canvas_padding * 2 in
  canvas ← Image_new (total_width, total_height) transparent;
  let window_x := canvas_padding in
  let window_y := canvas_padding + logo_overlap_y in
  Image_paste canvas frame (window_x, window_y) frame;;
  let logo_x := window_x + frame_size.1 - logo_overlap_x in
  let logo_y := window_y - logo_overlap_y in
  Image_paste canvas logo_scaled (logo_x, logo_y) logo_scaled;;
  mret canvas.

(** Lines 60-68: crop to the content, then pad.  The result is the object
    the variable [canvas] names afterwards. *)
Definition crop_and_pad (canvas : ref) : M ref :=
  bbox ← Image_getbbox canvas;
  match bbox with
  | Some box =>
      canvas ← Image_crop canvas box;
      let final_padding := 100 in
      canvas_size ← Image_size canvas;
      let new_size := (canvas_size.1 + final_padding * 2,
                       canvas_size.2 + final_padding * 2) in
      final_canvas ← Image_new new_size transparent;
      Image_paste final_canvas canvas (final_padding, final_padding) canvas;;
      mret final_canvas
  | None => mret canvas
  end.

(** Lines 10-58: everything up to the composited canvas. *)
Definition composite : M ref :=
  a ← Image_open screenshot_path;
  logo ← Image_open logo_path;
  frame ← make_frame a;
  logo_scaled ← scale_logo logo;
  make_canvas frame logo_scaled.

(** The line printed at the end. *)
Definition message : string := "Saved combined image to " ++ output_path.

(** Lines 10-73. *)
Definition combine : M unit :=
  canvas ← composite;
  canvas ← crop_and_pad canvas;
  Image_save canvas output_path "PNG";;
  print ("Saved combined image to " ++ output_path).

End Script.

(** ** The value each object of the script ends up with

    Read off the script block by block; the [*_run] lemmas below prove
    that running the blocks on the store produces exactly these. *)

Section Values.
Context {P : Pillow}.

(** [img] after [add_rounded_corners(img, radius)]. *)
Definition rounded_value (img : Image) (radius : Z) : Image :=
  im_putalpha img
    (mask_rounded_rectangle (mask_new (im_size img) 0)
       (0, 0, width img, height img) radius 255).

(** [frame] after line 33, for the screenshot [a] as loaded. *)
Definition frame_value (a : Image) : Image :=
  let frame_size := (width a + 40 * 2, height a + 40 + 40) in
  im_paste
    (im_rounded_rectangle (im_new frame_size transparent)
       (0, 0, frame_size.1, frame_size.2) 60 (RGBA 20 20 20 255))
    (rounded_value a 10) (40, 40) (rounded_value a 10).

(** [logo_scaled] after line 37. *)
Definition logo_scaled_value (logo : Image) : Image :=
  im_thumbnail logo (650, 650).

(** [canvas] after line 52 (frame pasted) and after line 58 (logo
    pasted). *)
Definition canvas_with_frame (frame logo_scaled : Image) : Image :=
  im_paste
    (im_new (width frame + width logo_scaled / 2 + 200 * 2,
             height frame + height logo_scaled / 2 + 200 * 2) transparent)
    frame (200, 200 + height logo_scaled / 2) frame.

Definition canvas_value (frame logo_scaled : Image) : Image :=
  im_paste (canvas_with_frame frame logo_scaled) logo_scaled
    (200 + width frame - width logo_scaled / 2,
     200 + height logo_scaled / 2 - height logo_scaled / 2)
    logo_scaled.

(** [final_canvas] after line 67, for the cropped canvas. *)
Definition padded_value (cropped : Image) : Image :=
  im_paste
    (im_new (width cropped + 100 * 2, height cropped + 100 * 2) transparent)
    cropped (100, 100) cropped.

(** The image handed to [save] on line 72. *)
Definition saved_value (canvas : Image) : Image :=
  match im_getbbox canvas with
  | Some box => padded_value (im_crop canvas box)
  | None => canvas
  end.

Definition composite_value (a logo : Image) : Image :=
  canvas_value (frame_value a) (logo_scaled_value logo).

End Values.

(** ** A reference implementation of the interface

    Pillow's integer blend (Paste.c), a geometric rounded rectangle and
    nearest-neighbour resampling: enough to run the script on small images
    and to show that [PillowSpec] can be met. *)

Module Reference.

(** [BLEND(mask, in1, in2, tmp)] = [DIV255(in1 * (255 - mask) + in2 * mask)]
    with [DIV255(a) = (tmp = a + 128, ((tmp >> 8) + tmp) >> 8)]. *)
Definition div255 (a : Z) : Z :=
  let tmp := a + 128 in
  Z.shiftr (Z.shiftr tmp 8 + tmp) 8.

Definition blend (m d s : Z) : Z := div255 (d * (255 - m) + s * m).

(** Nearest corner-circle centre along one axis. *)
Definition clamp (lo hi v : Z) : Z :=
  if v <? lo then lo else if hi <? v then hi else v.

Definition covers (xy : Z * Z * Z * Z) (radius x y : Z) : bool :=
  let '(x0, y0, x1, y1) := xy in
  let r := Z.min radius (Z.min ((x1 - x0) / 2) ((y1 - y0) / 2)) in
  let cx := clamp (x0 + r) (x1 - r) x in
  let cy := clamp (y0 + r) (y1 - r) y in
  (x0 <=? x) && (x <=? x1) && (y0 <=? y) && (y <=? y1) &&
  ((x - cx) * (x - cx) + (y - cy) * (y - cy) <=? r * r).

Definition nearest (im : Image) (size : Z * Z) : Image :=
  mkImage size.1 size.2
    (fun x y =>
       let sx := x * width im / size.1 in
       let sy := y * height im / size.2 in
       if im_inside im sx sy then getpixel im sx sy else transparent).

Definition pillow : Pillow :=
  Build_Pillow blend covers nearest true.

(** Whether the two forms of the thumbnail size give the same size for
    every logo with a width in [ws] and a height in [hs]. *)
Definition same_size (a b : option (Z * Z)) : bool :=
  match a, b with
  | Some (p, q), Some (r, s) => (p =? r) && (q =? s)
  | None, None => true
  | _, _ => false
  end.

Definition thumbnail_forms_agree_at (size : Z * Z) : bool :=
  same_size (preserve_aspect_ratio size (650, 650))
            (preserve_aspect_ratio_binary64 size (650, 650)).

Definition thumbnail_forms_agree (ws hs : list Z) : bool :=
  forallb (fun w => forallb (fun h => thumbnail_forms_agree_at (w, h)) hs) ws.

(** [count] numbers from [first] on, [step] apart. *)
Definition sizes (first step : Z) (count : nat) : list Z :=
  map (fun i => first + Z.of_nat i * step) (seq 0 count).

(** A 2 x 2 grey screenshot and a 4 x 4 red logo, both opaque. *)
Definition grey2 : Image := mkImage 2 2 (fun _ _ => RGBA 90 90 90 255).
Definition red4 : Image := mkImage 4 4 (fun _ _ => RGBA 200 0 0 255).

(** A 1300 x 700 half-transparent blue logo: too large for the box. *)
Definition wide_logo : Image :=
  mkImage 1300 700 (fun _ _ => RGBA 0 0 200 128).

Definition files (path : string) : exn + Image :=
  if String.eqb path "media/raw_screenshot.png" then inr grey2
  else if String.eqb path "media/logo.png" then inr red4
  else inl (Exception "FileNotFoundError").

Definition world : env := mkEnv files (fun _ _ => None).

(** The same world without the logo file. *)
Definition world_no_logo : env :=
  mkEnv (fun path => if String.eqb path "media/logo.png"
                     then inl (Exception "FileNotFoundError")
                     else files path)
        (fun _ _ => None).


(** The grey screenshot with an alpha band of zeros, and a world that has
    it in place of the opaque one. *)
Definition grey2_clear : Image := mkImage 2 2 (fun _ _ => RGBA 90 90 90 0).




(** A 45 x 45 screenshot, and a world that has it with the wide logo. *)
Definition grey45 : Image := mkImage 45 45 (fun _ _ => RGBA 90 90 90 255).

Definition world45 : env :=
  mkEnv (fun path => if String.eqb path "media/raw_screenshot.png"
                     then inr grey45
                     else if String.eqb path "media/logo.png"
                          then inr wide_logo
                          else inl (Exception "FileNotFoundError"))
        (fun _ _ => None).

End Reference.

(** * Properties *)

(** ** Scans and bounding boxes *)

Section RasterFacts.
Context {P : Pillow}.

Lemma inside_iff w h x y :
  inside w h x y = true <-> 0 <= x < w /\ 0 <= y < h.
Proof. unfold inside. rewrite !andb_true_iff. lia. Qed.

Lemma im_inside_iff im x y :
  im_inside im x y = true <-> 0 <= x < width im /\ 0 <= y < height im.
Proof. apply inside_iff. Qed.









End RasterFacts.

(** ** The size of a thumbnail *)

Section ThumbnailFacts.
Context {P : Pillow}.

Lemma floor_div_bounds a b :
  0 < b -> b * floor_div a b <= a < b * floor_div a b + b.
Proof.
  intros Hb. unfold floor_div.
  pose proof (Z.mul_div_le a b Hb).
  pose proof (Z.mul_succ_div_gt a b Hb). lia.
Qed.

Lemma ceil_div_bounds a b :
  0 < b -> b * ceil_div a b - b < a <= b * ceil_div a b.
Proof.
  intros Hb. unfold ceil_div.
  pose proof (Z.mul_div_le (- a) b Hb).
  pose proof (Z.mul_succ_div_gt (- a) b Hb). lia.
Qed.

Lemma preserve_aspect_ratio_None w h x y :
  preserve_aspect_ratio (w, h) (x, y) = None <-> w <= x /\ h <= y.
Proof.
  unfold preserve_aspect_ratio.
  destruct ((w <=? x) && (h <=? y)) eqn:E.
  - apply andb_true_iff in E. split; [lia | reflexivity].
  - apply andb_false_iff in E.
    destruct (w * y <=? x * h); (split; [discriminate | lia]).
Qed.

(** A thumbnail size fits the box, touches it along one axis, and is
    within one pixel of the exact proportional length along the other. *)
Lemma preserve_aspect_ratio_Some w h x y x' y' :
  1 <= w -> 1 <= h -> 1 <= x -> 1 <= y ->
  preserve_aspect_ratio (w, h) (x, y) = Some (x', y') ->
  (1 <= x' <= x /\ 1 <= y' <= y) /\
  ((y' = y /\ Z.abs (x' * h - y * w) < h) \/
   (x' = x /\ Z.abs (x * h - y' * w) < w)).
Proof.
  intros Hw Hh Hx Hy. unfold preserve_aspect_ratio.
  destruct ((w <=? x) && (h <=? y)); [discriminate|].
  destruct (w * y <=? x * h) eqn:E.
  - apply Z.leb_le in E.
    pose proof (floor_div_bounds (y * w) h ltac:(lia)) as Hf.
    pose proof (ceil_div_bounds (y * w) h ltac:(lia)) as Hc.
    set (f := floor_div (y * w) h) in *. set (c := ceil_div (y * w) h) in *.
    assert (1 <= y * w) by nia.
    assert (0 <= f) by nia. assert (1 <= c) by nia.
    assert (f <= c) by nia. assert (c <= x) by nia.
    unfold round_aspect. destruct (b64_ltb _ _); intros [= <- <-].
    + split; [lia|]. left. split; [reflexivity|].
      replace (Z.max c 1) with c by lia. lia.
    + split; [lia|]. left. split; [reflexivity|].
      destruct (Z.eq_dec f 0) as [F0|F0].
      * rewrite F0 in *. replace (Z.max 0 1) with 1 by lia. lia.
      * replace (Z.max f 1) with f by lia. lia.
  - apply Z.leb_gt in E.
    pose proof (floor_div_bounds (x * h) w ltac:(lia)) as Hf.
    pose proof (ceil_div_bounds (x * h) w ltac:(lia)) as Hc.
    set (f := floor_div (x * h) w) in *. set (c := ceil_div (x * h) w) in *.
    assert (1 <= x * h) by nia.
    assert (0 <= f) by nia. assert (1 <= c) by nia.
    assert (f <= c) by nia. assert (c <= y) by nia.
    unfold round_aspect. destruct (b64_ltb _ _); intros [= <- <-].
    + split; [lia|]. right. split; [reflexivity|].
      replace (Z.max c 1) with c by lia. lia.
    + split; [lia|]. right. split; [reflexivity|].
      destruct (Z.eq_dec f 0) as [F0|F0].
      * rewrite F0 in *. replace (Z.max 0 1) with 1 by lia. lia.
      * replace (Z.max f 1) with f by lia. lia.
Qed.

Lemma im_thumbnail_fits im x y :
  width im <= x -> height im <= y -> im_thumbnail im (x, y) = im.
Proof.
  intros Hx Hy. unfold im_thumbnail, im_size.
  destruct (preserve_aspect_ratio _ _) as [fs|] eqn:E; [|reflexivity].
  assert (N : preserve_aspect_ratio (width im, height im) (x, y) = None)
    by (apply preserve_aspect_ratio_None; lia).
  congruence.
Qed.

Lemma im_thumbnail_size `{!PillowSpec P} im x y :
  im_size (im_thumbnail im (x, y)) =
  match preserve_aspect_ratio (im_size im) (x, y) with
  | Some final_size => final_size
  | None => im_size im
  end.
Proof.
  unfold im_thumbnail.
  destruct (preserve_aspect_ratio _ _) as [fs|]; [|reflexivity].
  destruct (decide _) as [->|]; [reflexivity | apply resize_size].
Qed.

Lemma im_thumbnail_valid `{!PillowSpec P} im x y :
  valid_image im -> 1 <= x -> 1 <= y -> valid_image (im_thumbnail im (x, y)).
Proof.
  intros Hv Hx Hy. unfold im_thumbnail.
  destruct (preserve_aspect_ratio _ _) as [[x' y']|] eqn:E; [|assumption].
  destruct (decide _); [assumption|].
  pose proof Hv as (Hw & Hh & _).
  apply preserve_aspect_ratio_Some in E as [[? ?] _]; try lia.
  apply resize_valid; [assumption | simpl; lia | simpl; lia].
Qed.

End ThumbnailFacts.

(** ** Running the script on the store *)

Section Execution.
Context {P : Pillow}.

Lemma lookup_snoc_new (h : list Image) (x : Image) (n : nat) :
  n = length h -> (h ++ [x]) !! n = Some x.
Proof. apply list_lookup_middle. Qed.

Lemma lookup_snoc_old (h : list Image) (x v : Image) (i : nat) :
  h !! i = Some v -> (h ++ [x]) !! i = Some v.
Proof. apply lookup_app_l_Some. Qed.

Lemma insert_snoc_new (h : list Image) (x y : Image) (n : nat) :
  n = length h -> <[n := y]> (h ++ [x]) = h ++ [y].
Proof.
  intros ->. rewrite insert_app_r_alt by lia. by rewrite Nat.sub_diag.
Qed.

Lemma insert_snoc_old (h : list Image) (x y v : Image) (i : nat) :
  h !! i = Some v -> <[i := y]> (h ++ [x]) = <[i := y]> h ++ [x].
Proof. intros H. apply insert_app_l. by eapply lookup_lt_Some. Qed.

(** Sequencing after a step that returns. *)
Lemma run_bind {A B} (m : M A) (k : A -> M B) e s a s' :
  run m e s = (Ok a, s') -> run (m ≫= k) e s = run (k a) e s'.
Proof. unfold run, mbind, M_bind, bind. by intros ->. Qed.

(** Sequencing after a step that raises. *)
Lemma run_bind_raise {A B} (m : M A) (k : A -> M B) e s x s' :
  run m e s = (Raise x, s') -> run (m ≫= k) e s = (Raise x, s').
Proof. unfold run, mbind, M_bind, bind. by intros ->. Qed.

Lemma run_bind_cases {A B} (m : M A) (k : A -> M B) e s :
  run (m ≫= k) e s =
  match run m e s with
  | (Ok a, s') => run (k a) e s'
  | (Raise x, s') => (Raise x, s')
  end.
Proof. reflexivity. Qed.

Lemma run_ret {A} (a : A) e s : run (mret a) e s = (Ok a, s).
Proof. reflexivity. Qed.

Lemma run_load r im e s :
  heap s !! r = Some im -> run (load r) e s = (Ok im, s).
Proof. unfold run, load. by intros ->. Qed.

Lemma Image_size_run r im e s :
  heap s !! r = Some im -> run (Image_size r) e s = (Ok (im_size im), s).
Proof.
  intros H. unfold Image_size. by rewrite (run_bind _ _ _ _ _ _ (run_load _ _ e _ H)).
Qed.

Lemma Image_new_run size color e s :
  run (Image_new size color) e s =
  (Ok (length (heap s)), mkState (heap s ++ [im_new size color]) (trace s)).
Proof. reflexivity. Qed.

Lemma check_radius_run radius e s :
  0 <= radius -> run (check_radius radius) e s = (Ok tt, s).
Proof.
  intros H. unfold check_radius.
  replace (radius <? 0) with false by (symmetry; apply Z.ltb_ge; lia).
  reflexivity.
Qed.

Lemma check_radius_raise radius e s :
  radius < 0 ->
  run (check_radius radius) e s = (Raise (Exception "ValueError"), s).
Proof.
  intros H. unfold check_radius.
  replace (radius <? 0) with true by (symmetry; apply Z.ltb_lt; lia).
  reflexivity.
Qed.

Lemma rounded_rectangle_run r im xy radius fill e s :
  0 <= radius -> heap s !! r = Some im ->
  run (ImageDraw_rounded_rectangle r xy radius fill) e s =
  (Ok tt, mkState (<[r := im_rounded_rectangle im xy radius fill]> (heap s))
                  (trace s)).
Proof.
  intros Hr H. unfold ImageDraw_rounded_rectangle.
  rewrite (run_bind _ _ _ _ _ _ (check_radius_run radius e s Hr)).
  by rewrite (run_bind _ _ _ _ _ _ (run_load _ _ e _ H)).
Qed.

Lemma Image_putalpha_run r im m e s :
  heap s !! r = Some im ->
  run (Image_putalpha r m) e s =
  (Ok tt, mkState (<[r := im_putalpha im m]> (heap s)) (trace s)).
Proof.
  intros H. unfold Image_putalpha.
  by rewrite (run_bind _ _ _ _ _ _ (run_load _ _ e _ H)).
Qed.

Lemma Image_paste_run dst src mask d sr m box e s :
  heap s !! dst = Some d -> heap s !! src = Some sr ->
  heap s !! mask = Some m ->
  run (Image_paste dst src box mask) e s =
  (Ok tt, mkState (<[dst := im_paste d sr box m]> (heap s)) (trace s)).
Proof.
  intros Hd Hs Hm. unfold Image_paste.
  rewrite (run_bind _ _ _ _ _ _ (run_load _ _ e _ Hd)).
  rewrite (run_bind _ _ _ _ _ _ (run_load _ _ e _ Hs)).
  by rewrite (run_bind _ _ _ _ _ _ (run_load _ _ e _ Hm)).
Qed.

Lemma Image_copy_run r im e s :
  heap s !! r = Some im ->
  run (Image_copy r) e s =
  (Ok (length (heap s)), mkState (heap s ++ [im]) (trace s)).
Proof.
  intros H. unfold Image_copy.
  by rewrite (run_bind _ _ _ _ _ _ (run_load _ _ e _ H)).
Qed.

Lemma Image_thumbnail_run r im size e s :
  heap s !! r = Some im ->
  run (Image_thumbnail r size) e s =
  (Ok tt, mkState (<[r := im_thumbnail im size]> (heap s)) (trace s)).
Proof.
  intros H. unfold Image_thumbnail.
  by rewrite (run_bind _ _ _ _ _ _ (run_load _ _ e _ H)).
Qed.

Lemma Image_getbbox_run r im e s :
  heap s !! r = Some im ->
  run (Image_getbbox r) e s = (Ok (im_getbbox im), s).
Proof.
  intros H. unfold Image_getbbox.
  by rewrite (run_bind _ _ _ _ _ _ (run_load _ _ e _ H)).
Qed.

Lemma Image_crop_run r im box e s :
  heap s !! r = Some im ->
  run (Image_crop r box) e s =
  (Ok (length (heap s)), mkState (heap s ++ [im_crop im box]) (trace s)).
Proof.
  intros H. unfold Image_crop.
  by rewrite (run_bind _ _ _ _ _ _ (run_load _ _ e _ H)).
Qed.

(** *** The blocks of the script *)

Lemma add_rounded_corners_run img im radius e s :
  0 <= radius -> heap s !! img = Some im ->
  run (add_rounded_corners img radius) e s =
  (Ok img, mkState (<[img := rounded_value im radius]> (heap s)) (trace s)).
Proof.
  intros Hr H. unfold add_rounded_corners, Mask_rounded_rectangle.
  erewrite run_bind by (apply Image_size_run; eassumption).
  erewrite run_bind
    by (erewrite run_bind by (apply check_radius_run; assumption);
        apply run_ret).
  erewrite run_bind by (apply Image_putalpha_run; eassumption).
  reflexivity.
Qed.

Lemma add_rounded_corners_raise img im radius e s :
  radius < 0 -> heap s !! img = Some im ->
  run (add_rounded_corners img radius) e s =
  (Raise (Exception "ValueError"), s).
Proof.
  intros Hr H. unfold add_rounded_corners, Mask_rounded_rectangle.
  erewrite run_bind by (apply Image_size_run; eassumption).
  erewrite run_bind_raise
    by (erewrite run_bind_raise by (apply check_radius_raise; assumption);
        reflexivity).
  reflexivity.
Qed.

Lemma make_frame_run a A e s :
  heap s !! a = Some A ->
  run (make_frame a) e s =
  (Ok (length (heap s)),
   mkState (<[a := rounded_value A 10]> (heap s) ++ [frame_value A])
           (trace s)).
Proof.
  intros H. unfold make_frame.
  assert (Ha : (a < length (heap s))%nat) by (eapply lookup_lt_Some; eassumption).
  erewrite run_bind by (apply Image_size_run; eassumption).
  erewrite run_bind by apply Image_new_run.
  erewrite run_bind
    by (apply rounded_rectangle_run;
        [lia | apply lookup_snoc_new; reflexivity]).
  cbn [heap trace]. rewrite insert_snoc_new by reflexivity.
  erewrite run_bind
    by (apply add_rounded_corners_run;
        [lia | apply lookup_snoc_old; eassumption]).
  cbn [heap trace]. erewrite insert_snoc_old by eassumption.
  erewrite run_bind
    by (eapply Image_paste_run; cbn [heap];
        [ apply lookup_snoc_new; symmetry; apply length_insert
        | apply lookup_snoc_old, list_lookup_insert_eq; exact Ha
        | apply lookup_snoc_old, list_lookup_insert_eq; exact Ha ]).
  cbn [heap trace]. rewrite insert_snoc_new by (symmetry; apply length_insert).
  reflexivity.
Qed.

Lemma scale_logo_run logo L e s :
  heap s !! logo = Some L ->
  run (scale_logo logo) e s =
  (Ok (length (heap s)),
   mkState (heap s ++ [logo_scaled_value L]) (trace s)).
Proof.
  intros H. unfold scale_logo.
  erewrite run_bind by (apply Image_copy_run; eassumption).
  erewrite run_bind
    by (apply Image_thumbnail_run, lookup_snoc_new; reflexivity).
  cbn [heap trace]. rewrite insert_snoc_new by reflexivity.
  reflexivity.
Qed.

Lemma make_canvas_run frame logo_scaled F LS e s :
  heap s !! frame = Some F -> heap s !! logo_scaled = Some LS ->
  run (make_canvas frame logo_scaled) e s =
  (Ok (length (heap s)),
   mkState (heap s ++ [canvas_value F LS]) (trace s)).
Proof.
  intros HF HL. unfold make_canvas.
  erewrite run_bind by (apply Image_size_run; eassumption).
  erewrite run_bind by (apply Image_size_run; eassumption).
  erewrite run_bind by apply Image_new_run.
  erewrite run_bind
    by (eapply Image_paste_run; cbn [heap];
        [ apply lookup_snoc_new; reflexivity
        | apply lookup_snoc_old; eassumption
        | apply lookup_snoc_old; eassumption ]).
  cbn [heap trace]. rewrite insert_snoc_new by reflexivity.
  erewrite run_bind
    by (eapply Image_paste_run; cbn [heap];
        [ apply lookup_snoc_new; reflexivity
        | apply lookup_snoc_old; eassumption
        | apply lookup_snoc_old; eassumption ]).
  cbn [heap trace]. rewrite insert_snoc_new by reflexivity.
  reflexivity.
Qed.

Lemma crop_and_pad_run canvas C e s :
  heap s !! canvas = Some C ->
  run (crop_and_pad canvas) e s =
  match im_getbbox C with
  | Some box =>
      (Ok (S (length (heap s))),
       mkState ((heap s ++ [im_crop C box]) ++ [padded_value (im_crop C box)])
               (trace s))
  | None => (Ok canvas, s)
  end.
Proof.
  intros H. unfold crop_and_pad.
  erewrite run_bind by (apply Image_getbbox_run; eassumption).
  destruct (im_getbbox C) as [box|]; [|reflexivity].
  erewrite run_bind by (apply Image_crop_run; eassumption).
  erewrite run_bind
    by (apply Image_size_run, lookup_snoc_new; reflexivity).
  erewrite run_bind by apply Image_new_run.
  erewrite run_bind
    by (eapply Image_paste_run; cbn [heap];
        [ apply lookup_snoc_new; reflexivity
        | apply lookup_snoc_old, lookup_snoc_new; reflexivity
        | apply lookup_snoc_old, lookup_snoc_new; reflexivity ]).
  cbn [heap trace]. rewrite insert_snoc_new by reflexivity.
  rewrite run_ret. do 2 f_equal. by rewrite length_app, Nat.add_comm.
Qed.

(** *** The whole script, by what the outside world answers *)

Lemma Image_open_run path im e s :
  fs_open e path = inr im ->
  run (Image_open path) e s =
  (Ok (length (heap s)),
   mkState (heap s ++ [im]) (trace s ++ [EvOpen path])).
Proof.
  intros H. unfold Image_open, run, mbind, M_bind, bind, emit, decode_file.
  by rewrite H.
Qed.

Lemma Image_open_raise path x e s :
  fs_open e path = inl x ->
  run (Image_open path) e s =
  (Raise x, mkState (heap s) (trace s ++ [EvOpen path])).
Proof.
  intros H. unfold Image_open, run, mbind, M_bind, bind, emit, decode_file.
  by rewrite H.
Qed.

Lemma Image_save_run r im path format e s :
  heap s !! r = Some im ->
  run (Image_save r path format) e s =
  (match fs_save e path format with
   | Some x => Raise x
   | None => Ok tt
   end,
   mkState (heap s) (trace s ++ [EvSave path format im])).
Proof.
  intros H. unfold Image_save.
  rewrite (run_bind _ _ _ _ _ _ (run_load _ _ e _ H)).
  unfold run, mbind, M_bind, bind, emit, write_file. cbn [heap trace].
  by destruct (fs_save e path format).
Qed.

Lemma composite_run a logo e :
  fs_open e screenshot_path = inr a -> fs_open e logo_path = inr logo ->
  run composite e initial =
  (Ok 4%nat,
   mkState [rounded_value a 10; logo; frame_value a;
            logo_scaled_value logo; composite_value a logo]
           [EvOpen screenshot_path; EvOpen logo_path]).
Proof.
  intros Ha Hl. unfold composite.
  erewrite run_bind by (apply Image_open_run; eassumption).
  erewrite run_bind by (apply Image_open_run; eassumption).
  erewrite run_bind by (by apply make_frame_run with (A := a)).
  erewrite run_bind by (by apply scale_logo_run with (L := logo)).
  by erewrite make_canvas_run.
Qed.

Lemma composite_raise_screenshot x e :
  fs_open e screenshot_path = inl x ->
  run composite e initial =
  (Raise x, mkState [] [EvOpen screenshot_path]).
Proof.
  intros Ha. unfold composite.
  by erewrite run_bind_raise by (apply Image_open_raise; eassumption).
Qed.

Lemma composite_raise_logo a x e :
  fs_open e screenshot_path = inr a -> fs_open e logo_path = inl x ->
  run composite e initial =
  (Raise x, mkState [a] [EvOpen screenshot_path; EvOpen logo_path]).
Proof.
  intros Ha Hl. unfold composite.
  erewrite run_bind by (apply Image_open_run; eassumption).
  by erewrite run_bind_raise by (apply Image_open_raise; eassumption).
Qed.

(** The run of [combine] when both files decode. *)
Lemma combine_run a logo e :
  fs_open e screenshot_path = inr a -> fs_open e logo_path = inr logo ->
  let canvas := composite_value a logo in
  let objects :=
    [rounded_value a 10; logo; frame_value a; logo_scaled_value logo; canvas]
    ++ match im_getbbox canvas with
       | Some box => [im_crop canvas box; saved_value canvas]
       | None => []
       end in
  let saving := [EvOpen screenshot_path; EvOpen logo_path;
                 EvSave output_path "PNG" (saved_value canvas)] in
  run combine e initial =
  match fs_save e output_path "PNG" with
  | Some x => (Raise x, mkState objects saving)
  | None => (Ok tt, mkState objects (saving ++ [EvPrint message]))
  end.
Proof.
  intros Ha Hl canvas objects saving. unfold combine.
  erewrite run_bind by (apply composite_run; eassumption).
  pose proof (crop_and_pad_run 4%nat canvas e
                (mkState [rounded_value a 10; logo; frame_value a;
                          logo_scaled_value logo; canvas]
                         [EvOpen screenshot_path; EvOpen logo_path])
                eq_refl) as Hc.
  subst objects saving. unfold saved_value.
  destruct (im_getbbox canvas) as [box|];
    erewrite run_bind by exact Hc;
    rewrite run_bind_cases;
    erewrite Image_save_run by reflexivity;
    destruct (fs_save e output_path "PNG"); reflexivity.
Qed.

Lemma combine_raise_screenshot x e :
  fs_open e screenshot_path = inl x ->
  run combine e initial = (Raise x, mkState [] [EvOpen screenshot_path]).
Proof.
  intros Ha. unfold combine.
  erewrite run_bind_raise by (apply composite_raise_screenshot; eassumption).
  reflexivity.
Qed.

Lemma combine_raise_logo a x e :
  fs_open e screenshot_path = inr a -> fs_open e logo_path = inl x ->
  run combine e initial =
  (Raise x, mkState [a] [EvOpen screenshot_path; EvOpen logo_path]).
Proof.
  intros Ha Hl. unfold combine.
  erewrite run_bind_raise by (apply composite_raise_logo; eassumption).
  reflexivity.
Qed.

End Execution.

(** ** The frame (lines 15-33) *)

Section Frame.
Context {P : Pillow} `{!PillowSpec P}.

Lemma blend_pixel_0 d s : valid_pixel d -> blend_pixel 0 d s = d.
Proof.
  intros (Hr & Hg & Hb & Ha). destruct d; unfold blend_pixel; simpl in *.
  by rewrite !blend_0.
Qed.

Lemma blend_pixel_255 d s : valid_pixel s -> blend_pixel 255 d s = s.
Proof.
  intros (Hr & Hg & Hb & Ha). destruct s; unfold blend_pixel; simpl in *.
  by rewrite !blend_255.
Qed.

Lemma valid_pixel_consts r g b a :
  byte_range r -> byte_range g -> byte_range b -> byte_range a ->
  valid_pixel (RGBA r g b a).
Proof. unfold valid_pixel; simpl; auto. Qed.

(** The pixels of the frame: the screenshot, opaque, where its own
    rounded mask (radius 10) is set, shifted by (40, 40); around it the
    dark rounded rectangle (radius 60); transparent outside of that. *)
Lemma frame_value_pixel a X Y :
  valid_image a ->
  getpixel (frame_value a) X Y =
  if im_inside a (X - 40) (Y - 40) &&
     rounded_rectangle_covers (0, 0, width a, height a) 10 (X - 40) (Y - 40)
  then let p := getpixel a (X - 40) (Y - 40) in
       RGBA (red p) (green p) (blue p) 255
  else if rounded_rectangle_covers
            (0, 0, width a + 80, height a + 80) 60 X Y
       then RGBA 20 20 20 255
       else transparent.
Proof.
  intros (_ & _ & Hp). unfold frame_value, rounded_value. cbn.
  replace (width a + 40 * 2) with (width a + 80) by lia.
  replace (height a + 40 + 40) with (height a + 80) by lia.
  change (im_inside (im_putalpha a _) (X - 40) (Y - 40))
    with (im_inside a (X - 40) (Y - 40)).
  destruct (im_inside a (X - 40) (Y - 40)) eqn:Hin; cbn; [|reflexivity].
  specialize (Hp _ _ Hin) as (Hr & Hg & Hb & _).
  destruct (rounded_rectangle_covers (0, 0, width a, height a) _ _ _).
  - apply blend_pixel_255. by apply valid_pixel_consts.
  - apply blend_pixel_0.
    destruct (rounded_rectangle_covers _ 60 X Y);
      apply valid_pixel_consts; unfold byte_range; lia.
Qed.

(** C4. For a screenshot of size (w, h) the frame that [make_frame]
    builds has size (w + 80, h + 80); the screenshot is pasted at offset
    (40, 40), so it fills the columns from 40 to width - 40 and the rows
    from 40 to height - 40 (40 pixels of padding left, right, top and
    bottom), and every pixel of the frame is the screenshot's there (under
    its rounded mask) and the rounded background around it. *)
Theorem frame_geometry e s a A :
  heap s !! a = Some A -> valid_image A ->
  exists frame F s',
    run (make_frame a) e s = (Ok frame, s') /\
    heap s' !! frame = Some F /\
    width F = width A + 80 /\ height F = height A + 80 /\
    (forall X Y, im_inside A (X - 40) (Y - 40) = true <->
                 40 <= X < width F - 40 /\ 40 <= Y < height F - 40) /\
    forall X Y,
      getpixel F X Y =
      if im_inside A (X - 40) (Y - 40) &&
         rounded_rectangle_covers (0, 0, width A, height A) 10
                                   (X - 40) (Y - 40)
      then let p := getpixel A (X - 40) (Y - 40) in
           RGBA (red p) (green p) (blue p) 255
      else if rounded_rectangle_covers
                (0, 0, width A + 80, height A + 80) 60 X Y
           then RGBA 20 20 20 255
           else transparent.
Proof.
  intros Ha Hv.
  exists (length (heap s)), (frame_value A). eexists.
  split; [by apply make_frame_run|].
  cbn [heap].
  split; [apply lookup_snoc_new; symmetry; apply length_insert|].
  split; [cbn; lia|]. split; [cbn; lia|].
  split.
  - intros X Y. rewrite im_inside_iff. cbn. lia.
  - intros X Y. by apply frame_value_pixel.
Qed.

End Frame.

(** ** The scaled logo (lines 35-37) *)

Section Logo.
Context {P : Pillow} `{!PillowSpec P}.

Lemma lookup_snoc_other (h : list Image) (x : Image) (r : nat) :
  r <> length h -> (h ++ [x]) !! r = h !! r.
Proof.
  intros Hr. destruct (decide (r < length h)%nat) as [Hlt|Hge].
  - by apply lookup_app_l.
  - rewrite !lookup_ge_None_2; [reflexivity | lia |].
    rewrite length_app. simpl. lia.
Qed.

(** C6. [scale_logo] leaves the logo object as it was and returns a new
    object.  The new image fits in 650 x 650 and its bands are bytes.  It is
    the logo itself when the logo already fits.  Otherwise it is Pillow's
    resampling of the logo to the thumbnail size, and that size is exact:
    650 along the longer side and, along the other, the floor or the
    ceiling (at least 1) of the proportional length, whichever has the
    binary64 aspect ratio nearer to the logo's, the floor when the two keys
    are equal as binary64 numbers.  Either way the shorter side is within
    one pixel of the exact proportional length, which is what keeping the
    aspect ratio means on whole pixels. *)
Theorem logo_scaled_on_a_copy e s logo L :
  heap s !! logo = Some L -> valid_image L ->
  exists logo_scaled LS s',
    run (scale_logo logo) e s = (Ok logo_scaled, s') /\
    heap s' !! logo_scaled = Some LS /\
    logo_scaled <> logo /\
    heap s' !! logo = Some L /\
    (forall r, r <> logo_scaled -> heap s' !! r = heap s !! r) /\
    (1 <= width LS <= 650 /\ 1 <= height LS <= 650) /\
    (width L <= 650 /\ height L <= 650 -> LS = L) /\
    (~ (width L <= 650 /\ height L <= 650) ->
     (height LS = 650 /\
      Z.abs (width LS * height L - 650 * width L) < height L) \/
     (width LS = 650 /\
      Z.abs (650 * height L - height LS * width L) < width L)) /\
    valid_image LS /\
    (~ (width L <= 650 /\ height L <= 650) ->
     LS = resize L (im_size LS) /\
     let w := width L in
     let h := height L in
     let aspect := b64_div (b64_of_Z w) (b64_of_Z h) in
     let pick (lo hi : Z) (key : Z -> b64) :=
       Z.max (if b64_ltb (key hi) (key lo) then hi else lo) 1 in
     (w <= h ->
      im_size LS =
      (pick (650 * w / h) (- (- (650 * w) / h))
            (fun n => b64_abs (b64_sub aspect
                                 (b64_div (b64_of_Z n) (b64_of_Z 650)))),
       650)) /\
     (h < w ->
      im_size LS =
      (650,
       pick (650 * h / w) (- (- (650 * h) / w))
            (fun n => if n =? 0 then b64_of_Z 0
                      else b64_abs (b64_sub aspect
                                      (b64_div (b64_of_Z 650)
                                               (b64_of_Z n))))))).
Proof.
  intros Hl Hv.
  assert (Hlt : (logo < length (heap s))%nat)
    by (eapply lookup_lt_Some; eassumption).
  exists (length (heap s)), (logo_scaled_value L). eexists.
  split; [by apply scale_logo_run|]. cbn [heap].
  split; [by apply lookup_snoc_new|].
  split; [lia|].
  split; [by apply lookup_snoc_old|].
  split; [intros r Hr; by apply lookup_snoc_other|].
  pose proof Hv as (Hw & Hh & _).
  pose proof (im_thumbnail_valid L 650 650 Hv ltac:(lia) ltac:(lia)) as HvLS.
  pose proof (im_thumbnail_size L 650 650) as Hsz.
  unfold logo_scaled_value.
  destruct (preserve_aspect_ratio (im_size L) (650, 650))
    as [[x' y']|] eqn:E.
  - pose proof Hsz as Hsz'. injection Hsz' as Hx Hy. rewrite Hx, Hy.
    pose proof E as E'.
    apply preserve_aspect_ratio_Some in E' as [[? ?] Hratio]; try lia.
    assert (Hbig : ~ (width L <= 650 /\ height L <= 650)).
    { intros Hfit. apply preserve_aspect_ratio_None in Hfit.
      unfold im_size in E. congruence. }
    assert (Hres : im_thumbnail L (650, 650) = resize L (x', y')).
    { unfold im_thumbnail. rewrite E.
      destruct (decide _) as [Heq|]; [|reflexivity].
      exfalso. apply Hbig. unfold im_size in Heq.
      injection Heq as -> ->. lia. }
    split; [lia|]. split; [tauto|]. split; [intros _; exact Hratio|].
    split; [exact HvLS|]. intros _.
    split; [rewrite Hsz; exact Hres|].
    cbv zeta. rewrite Hsz.
    unfold preserve_aspect_ratio, im_size in E.
    destruct ((width L <=? 650) && (height L <=? 650)); [discriminate|].
    destruct (width L * 650 <=? 650 * height L) eqn:Hbranch.
    + apply Z.leb_le in Hbranch. injection E as <- <-.
      split; [intros _; reflexivity | intros Hgt; lia].
    + apply Z.leb_gt in Hbranch. injection E as <- <-.
      split; [intros Hle; lia | intros _; reflexivity].
  - apply preserve_aspect_ratio_None in E as [? ?].
    rewrite im_thumbnail_fits in HvLS |- * by assumption.
    split; [lia|]. split; [reflexivity|]. split; [tauto|].
    split; [exact HvLS|]. tauto.
Qed.

End Logo.

(** ** The canvas (lines 39-58) *)

Section Canvas.
Context {P : Pillow}.

(** C5. The canvas that [make_canvas] builds has width
    frame width + logo width // 2 + 400 and height
    frame height + logo height // 2 + 400, and the frame is pasted on it
    at (200, 200 + logo height // 2): apart from the logo, which goes on
    top at some position, its pixels are the frame's moved by that offset
    and transparent elsewhere. *)
Theorem canvas_geometry e s frame logo_scaled F LS :
  heap s !! frame = Some F -> heap s !! logo_scaled = Some LS ->
  exists canvas C s',
    run (make_canvas frame logo_scaled) e s = (Ok canvas, s') /\
    heap s' !! canvas = Some C /\
    width C = width F + width LS / 2 + 400 /\
    height C = height F + height LS / 2 + 400 /\
    exists logo_x logo_y,
      forall X Y,
        let with_frame :=
          if im_inside F (X - 200) (Y - (200 + height LS / 2))
          then let f := getpixel F (X - 200) (Y - (200 + height LS / 2)) in
               blend_pixel (alpha f) transparent f
          else transparent in
        getpixel C X Y =
        if im_inside LS (X - logo_x) (Y - logo_y)
        then let l := getpixel LS (X - logo_x) (Y - logo_y) in
             blend_pixel (alpha l) with_frame l
        else with_frame.
Proof.
  intros HF HL.
  exists (length (heap s)), (canvas_value F LS). eexists.
  split; [by apply make_canvas_run|]. cbn [heap].
  split; [by apply lookup_snoc_new|].
  split; [cbn; lia|]. split; [cbn; lia|].
  eexists _, _. intros X Y. reflexivity.
Qed.

(** C3. With the frame pasted at (window_x, window_y) =
    (200, 200 + logo height // 2), the scaled logo is pasted with its left
    edge at window_x + frame width - logo width // 2 and its top edge at
    window_y - logo height // 2, so that the top right corner of the
    frame lies at (logo width // 2, logo height // 2) inside the logo. *)
Theorem logo_position e s frame logo_scaled F LS :
  heap s !! frame = Some F -> heap s !! logo_scaled = Some LS ->
  exists canvas C s',
    run (make_canvas frame logo_scaled) e s = (Ok canvas, s') /\
    heap s' !! canvas = Some C /\
    let window_x := 200 in
    let window_y := 200 + height LS / 2 in
    let logo_x := window_x + width F - width LS / 2 in
    let logo_y := window_y - height LS / 2 in
    (window_x + width F - logo_x = width LS / 2 /\
     window_y - logo_y = height LS / 2) /\
    forall X Y,
      let with_frame :=
        if im_inside F (X - window_x) (Y - window_y)
        then let f := getpixel F (X - window_x) (Y - window_y) in
             blend_pixel (alpha f) transparent f
        else transparent in
      getpixel C X Y =
      if im_inside LS (X - logo_x) (Y - logo_y)
      then let l := getpixel LS (X - logo_x) (Y - logo_y) in
           blend_pixel (alpha l) with_frame l
      else with_frame.
Proof.
  intros HF HL.
  exists (length (heap s)), (canvas_value F LS). eexists.
  split; [by apply make_canvas_run|]. cbn [heap].
  split; [by apply lookup_snoc_new|].
  cbv zeta. split; [lia|].
  intros X Y. reflexivity.
Qed.

End Canvas.

(** ** The canvas is never empty *)

Section Content.
Context {P : Pillow} `{!PillowSpec P}.







End Content.

(** ** The saved image (lines 60-72) *)

Section Output.
Context {P : Pillow}.



Context `{!PillowSpec P}.




End Output.

(** ** Determinism: the output depends on the content of the inputs only *)

Section Determinism.
Context {P : Pillow} `{!PillowSpec P}.
















End Determinism.

(** ** The reference implementation meets the contract *)

Module ReferenceFacts.
Import Reference.

Lemma div255_mono a b : a <= b -> div255 a <= div255 b.
Proof.
  intros H. unfold div255. rewrite !Z.shiftr_div_pow2 by lia.
  apply Z.div_le_mono; [lia|].
  assert ((a + 128) / 2 ^ 8 <= (b + 128) / 2 ^ 8)
    by (apply Z.div_le_mono; lia).
  lia.
Qed.

Lemma div255_exact k : 0 <= k <= 255 -> div255 (255 * k) = k.
Proof.
  intros H. unfold div255. rewrite !Z.shiftr_div_pow2 by lia.
  change (2 ^ 8) with 256.
  pose proof (Z.div_mod (255 * k + 128) 256 ltac:(lia)) as E1.
  pose proof (Z.mod_pos_bound (255 * k + 128) 256 ltac:(lia)) as B1.
  set (q1 := (255 * k + 128) / 256) in *.
  pose proof (Z.div_mod (q1 + (255 * k + 128)) 256 ltac:(lia)) as E2.
  pose proof (Z.mod_pos_bound (q1 + (255 * k + 128)) 256 ltac:(lia)) as B2.
  lia.
Qed.

Lemma blend_range m d s :
  byte_range m -> byte_range d -> byte_range s ->
  Z.min d s <= blend m d s <= Z.max d s.
Proof.
  unfold byte_range, blend. intros Hm Hd Hs.
  split.
  - rewrite <- (div255_exact (Z.min d s)) by lia. apply div255_mono. nia.
  - rewrite <- (div255_exact (Z.max d s)) by lia. apply div255_mono. nia.
Qed.

Lemma covers_centre w h radius :
  2 <= w -> 2 <= h -> 0 <= radius ->
  covers (0, 0, w, h) radius (w / 2) (h / 2) = true.
Proof.
  intros Hw Hh Hr. unfold covers, clamp.
  rewrite !Z.sub_0_r, !Z.add_0_l.
  set (r := Z.min radius (Z.min (w / 2) (h / 2))).
  assert (0 <= r <= w / 2 /\ r <= h / 2) as (Hr0 & Hr1)
    by (subst r; pose proof (Z.div_pos w 2); pose proof (Z.div_pos h 2);
        lia).
  assert (w / 2 <= w - r /\ h / 2 <= h - r) as (Hx & Hy).
  { pose proof (Z.mul_div_le w 2 ltac:(lia)).
    pose proof (Z.mul_div_le h 2 ltac:(lia)). lia. }
  assert (0 <= w / 2 /\ 0 <= h / 2) as (? & ?)
    by (split; apply Z.div_pos; lia).
  replace (w / 2 <? r) with false by (symmetry; apply Z.ltb_ge; lia).
  replace (w - r <? w / 2) with false by (symmetry; apply Z.ltb_ge; lia).
  replace (h / 2 <? r) with false by (symmetry; apply Z.ltb_ge; lia).
  replace (h - r <? h / 2) with false by (symmetry; apply Z.ltb_ge; lia).
  rewrite !Z.sub_diag. rewrite !andb_true_iff, !Z.leb_le. nia.
Qed.

Lemma nearest_valid im size :
  valid_image im -> 1 <= size.1 -> 1 <= size.2 ->
  valid_image (nearest im size).
Proof.
  intros (Hw & Hh & Hp) H1 H2. split; [exact H1|]. split; [exact H2|].
  intros x y _. cbn.
  destruct (im_inside im _ _) eqn:Hin; [by apply Hp|].
  repeat split; cbn; lia.
Qed.

Lemma nearest_equiv a b size :
  im_equiv a b -> im_equiv (nearest a size) (nearest b size).
Proof.
  intros (Hw & Hh & Hp). split; [reflexivity|]. split; [reflexivity|].
  intros x y _. cbn. unfold im_inside. rewrite <- Hw, <- Hh.
  fold (im_inside a (x * width a / size.1) (y * height a / size.2)).
  destruct (im_inside a _ _) eqn:Hin; [by apply Hp | reflexivity].
Qed.

Lemma pillow_spec : PillowSpec pillow.
Proof.
  split.
  - intros d s Hd. cbn. unfold blend.
    replace (d * (255 - 0) + s * 0) with (255 * d) by lia.
    by apply div255_exact.
  - intros d s Hs. cbn. unfold blend.
    replace (d * (255 - 255) + s * 255) with (255 * s) by lia.
    by apply div255_exact.
  - exact blend_range.
  - exact covers_centre.
  - by intros im [x y].
  - exact nearest_valid.
  - exact nearest_equiv.
Qed.

Lemma grey2_valid : valid_image grey2.
Proof. repeat split; cbn; lia. Qed.


Lemma wide_logo_valid : valid_image wide_logo.
Proof. repeat split; cbn; lia. Qed.

End ReferenceFacts.

(** ** Failures and external effects *)

Section Effects.
Context {P : Pillow}.


(** C8, as the code has it.  In a run that returns normally, the effects on
    the file system and on standard output are exactly these four, in this
    order: open "media/raw_screenshot.png", open "media/logo.png", save one
    image to "/Users/filipstrand/Desktop/combined_transparent.png" as
    "PNG", print one line naming that path.  The printed line is an
    external effect besides the file. *)
Theorem external_effects e :
  (run combine e initial).1 = Ok tt ->
  exists S,
    trace (run combine e initial).2 =
    [EvOpen screenshot_path; EvOpen logo_path;
     EvSave output_path "PNG" S; EvPrint message].
Proof.
  destruct (fs_open e screenshot_path) as [xa|a] eqn:Ha.
  { rewrite (combine_raise_screenshot xa e Ha). cbn [fst]. discriminate. }
  destruct (fs_open e logo_path) as [xl|logo] eqn:Hl.
  { rewrite (combine_raise_logo a xl e Ha Hl). cbn [fst]. discriminate. }
  intros Hok. exists (saved_value (composite_value a logo)).
  revert Hok. rewrite (combine_run a logo e Ha Hl).
  destruct (fs_save e output_path "PNG"); cbn [fst snd trace].
  - discriminate.
  - reflexivity.
Qed.

(** X11. [a_rounded] is [a]: over the whole run the screenshot object is
    updated in place to the screenshot with rounded corners, while the logo
    object keeps the value it was loaded with (only its copy is scaled). *)
Lemma combine_keeps_logo e a logo :
  fs_open e screenshot_path = inr a -> fs_open e logo_path = inr logo ->
  heap (run combine e initial).2 !! 1%nat = Some logo /\
  heap (run combine e initial).2 !! 0%nat = Some (rounded_value a 10).
Proof.
  intros Ha Hl. rewrite (combine_run a logo e Ha Hl).
  destruct (fs_save e output_path "PNG"); split; reflexivity.
Qed.

End Effects.

(** ** The script on the reference implementation *)

Section OnReference.
Import Reference ReferenceFacts.
#[local] Existing Instance pillow.
#[local] Existing Instance pillow_spec.

(** The run on [world]: both files decode and the save succeeds. *)
Lemma combine_on_world :
  run combine world initial =
  (Ok tt,
   mkState
     ([rounded_value grey2 10; red4; frame_value grey2;
       logo_scaled_value red4; composite_value grey2 red4]
      ++ match im_getbbox (composite_value grey2 red4) with
         | Some box => [im_crop (composite_value grey2 red4) box;
                        saved_value (composite_value grey2 red4)]
         | None => []
         end)
     [EvOpen screenshot_path; EvOpen logo_path;
      EvSave output_path "PNG" (saved_value (composite_value grey2 red4));
      EvPrint message]).
Proof. exact (combine_run grey2 red4 world eq_refl eq_refl). Qed.

(** The thumbnail sizes of a few logos. *)
Example thumbnail_wide :
  preserve_aspect_ratio (1300, 700) (650, 650) = Some (650, 350).
Proof. reflexivity. Qed.

Example thumbnail_flat :
  preserve_aspect_ratio (10000, 1) (650, 650) = Some (650, 1).
Proof. reflexivity. Qed.

Example thumbnail_tall :
  preserve_aspect_ratio (4, 1300) (650, 650) = Some (2, 650).
Proof. reflexivity. Qed.

Example thumbnail_small :
  preserve_aspect_ratio (4, 4) (650, 650) = None.
Proof. reflexivity. Qed.

(** Logos for which the two candidates are equally far from the exact
    ratio: the binary64 keys decide, sometimes for the floor and sometimes
    for the ceiling. *)
Example thumbnail_tie_3x1300 :
  preserve_aspect_ratio (3, 1300) (650, 650) = Some (2, 650).
Proof. vm_compute. reflexivity. Qed.

Example thumbnail_tie_33x660 :
  preserve_aspect_ratio (33, 660) (650, 650) = Some (33, 650).
Proof. vm_compute. reflexivity. Qed.

Example thumbnail_tie_701x378 :
  preserve_aspect_ratio (701, 378) (650, 650) = Some (650, 351).
Proof. vm_compute. reflexivity. Qed.

Example thumbnail_tie_670x1000 :
  preserve_aspect_ratio (670, 1000) (650, 650) = Some (436, 650).
Proof. vm_compute. reflexivity. Qed.

Example thumbnail_narrowest :
  preserve_aspect_ratio (1, 10000) (650, 650) = Some (1, 650).
Proof. vm_compute. reflexivity. Qed.

(** [preserve_aspect_ratio] and [preserve_aspect_ratio_binary64] give the
    same size on these logos: the ones above, narrow ones, flat ones, and a
    range of larger ones. *)
Example thumbnail_binary64_ties :
  forallb thumbnail_forms_agree_at
    [(3, 1300); (33, 660); (701, 378); (670, 1000); (1300, 700);
     (10000, 1); (1, 10000); (4, 1300); (1300, 650); (651, 651);
     (651, 1); (1, 651); (4000, 3000); (3000, 4000)] = true.
Proof. vm_compute. reflexivity. Qed.

Example thumbnail_binary64_narrow :
  thumbnail_forms_agree (sizes 1 1 30) (sizes 651 7 30) = true.
Proof. vm_compute. reflexivity. Qed.

Example thumbnail_binary64_flat :
  thumbnail_forms_agree (sizes 651 7 30) (sizes 1 1 30) = true.
Proof. vm_compute. reflexivity. Qed.

Example thumbnail_binary64_large :
  thumbnail_forms_agree (sizes 600 13 30) (sizes 600 17 30) = true.
Proof. vm_compute. reflexivity. Qed.

(** The whole script on a 2 x 2 screenshot and a 4 x 4 logo: the canvas
    is 484 x 484, its content lies in (200, 200, 284, 284), and the saved
    image is 284 x 284 with the logo's top left corner at (180, 100). *)
Example combine_on_world_sizes :
  map im_size (heap (run combine world initial).2) =
  [(2, 2); (4, 4); (82, 82); (4, 4); (484, 484); (84, 84); (284, 284)].
Proof. vm_compute. reflexivity. Qed.

Example combine_on_world_bbox :
  im_getbbox (composite_value grey2 red4) = Some (200, 200, 284, 284).
Proof. vm_compute. reflexivity. Qed.

Example combine_on_world_pixels :
  map (fun im => (getpixel im 99 99, getpixel im 180 100,
                  getpixel im 100 143, getpixel im 141 143))
      (saved_images (trace (run combine world initial).2)) =
  [(transparent, RGBA 200 0 0 255, RGBA 20 20 20 255, RGBA 90 90 90 255)].
Proof. vm_compute. reflexivity. Qed.

(** C8 as stated does not hold: in a run where nothing fails, the
    external effects are not just the two reads and the one file written;
    a line is printed as well. *)
Lemma print_is_an_external_effect :
  (run combine world initial).1 = Ok tt /\
  In (EvPrint message) (trace (run combine world initial).2) /\
  ~ exists S, trace (run combine world initial).2 =
              [EvOpen screenshot_path; EvOpen logo_path;
               EvSave output_path "PNG" S].
Proof.
  rewrite combine_on_world. cbn [fst snd trace].
  split; [reflexivity|].
  split; [do 3 right; left; reflexivity|].
  intros [S HS]. apply (f_equal length) in HS.
  cbn [length] in HS. discriminate HS.
Qed.

Lemma external_effects_witness :
  exists S,
    trace (run combine world initial).2 =
    [EvOpen screenshot_path; EvOpen logo_path;
     EvSave output_path "PNG" S; EvPrint message].
Proof.
  apply (external_effects world).
  rewrite combine_on_world. reflexivity.
Defined.

Lemma frame_geometry_witness :
  heap (mkState [grey2] []) !! 0%nat = Some grey2 /\
  valid_image grey2 /\
  exists F, width F = 82 /\ height F = 82 /\
            getpixel F 41 41 = RGBA 90 90 90 255 /\
            getpixel F 41 20 = RGBA 20 20 20 255 /\
            getpixel F 0 0 = transparent.
Proof.
  split; [reflexivity|]. split; [exact grey2_valid|].
  destruct (frame_geometry world (mkState [grey2] []) 0%nat grey2
              eq_refl grey2_valid)
    as (frame & F & s' & _ & _ & Hw & Hh & _ & Hpx).
  exists F. rewrite Hw, Hh, !Hpx. repeat split; reflexivity.
Defined.

Lemma logo_scaled_on_a_copy_witness :
  heap (mkState [wide_logo] []) !! 0%nat = Some wide_logo /\
  valid_image wide_logo /\
  exists logo_scaled LS s',
    run (scale_logo 0%nat) world (mkState [wide_logo] []) =
    (Ok logo_scaled, s') /\
    heap s' !! logo_scaled = Some LS /\
    heap s' !! 0%nat = Some wide_logo /\
    LS = nearest wide_logo (650, 350) /\
    getpixel LS 649 349 = RGBA 0 0 200 128.
Proof.
  split; [reflexivity|]. split; [exact wide_logo_valid|].
  destruct (logo_scaled_on_a_copy world (mkState [wide_logo] []) 0%nat
              wide_logo eq_refl wide_logo_valid)
    as (ls & LS & s' & Hrun & Hls & _ & Hlogo & _ & _ & _ & _ & _ & Hscaled).
  assert (Hbig : ~ (width wide_logo <= 650 /\ height wide_logo <= 650))
    by (cbn; lia).
  destruct (Hscaled Hbig) as (Hres & _ & Hwide).
  assert (Hsize : im_size LS = (650, 350))
    by (rewrite Hwide by (cbn; lia); vm_compute; reflexivity).
  rewrite Hsize in Hres.
  exists ls, LS, s'. repeat split; try assumption.
  rewrite Hres. reflexivity.
Defined.

Lemma canvas_geometry_witness :
  heap (mkState [grey2; red4] []) !! 0%nat = Some grey2 /\
  heap (mkState [grey2; red4] []) !! 1%nat = Some red4 /\
  exists C, width C = 404 /\ height C = 404.
Proof.
  split; [reflexivity|]. split; [reflexivity|].
  destruct (canvas_geometry world (mkState [grey2; red4] []) 0%nat 1%nat
              grey2 red4 eq_refl eq_refl)
    as (canvas & C & s' & _ & _ & Hw & Hh & _).
  exists C. rewrite Hw, Hh. split; reflexivity.
Defined.

Lemma logo_position_witness :
  heap (mkState [red4; grey2] []) !! 0%nat = Some red4 /\
  heap (mkState [red4; grey2] []) !! 1%nat = Some grey2 /\
  exists C, getpixel C 200 201 = RGBA 200 0 0 255 /\
            getpixel C 203 201 = RGBA 90 90 90 255 /\
            getpixel C 204 200 = RGBA 90 90 90 255 /\
            getpixel C 200 200 = transparent.
Proof.
  split; [reflexivity|]. split; [reflexivity|].
  destruct (logo_position world (mkState [red4; grey2] []) 0%nat 1%nat
              red4 grey2 eq_refl eq_refl)
    as (canvas & C & s' & _ & _ & _ & Hpx).
  exists C. rewrite !Hpx. repeat split; reflexivity.
Defined.






End OnReference.

(** * Further properties of the script *)

(** ** add_rounded_corners (lines 3-8) *)

Section RoundedCorners.
Context {P : Pillow}.

(** X1. For a radius that is not negative [add_rounded_corners] works in
    place: it returns the very object it was given, allocates nothing,
    leaves every other object and the trace alone, and keeps the size and
    the colour bands of the image.  The old alpha band is thrown away, not
    combined: the new alpha is 255 where the rounded rectangle over the
    whole image is painted and 0 elsewhere.  For a negative radius it raises
    ValueError and leaves the store, the image included, as it was. *)
Theorem add_rounded_corners_in_place e s img im radius :
  heap s !! img = Some im ->
  (0 <= radius ->
   exists im' s',
     run (add_rounded_corners img radius) e s = (Ok img, s') /\
     heap s' !! img = Some im' /\
     length (heap s') = length (heap s) /\
     (forall r, r <> img -> heap s' !! r = heap s !! r) /\
     trace s' = trace s /\
     im_size im' = im_size im /\
     forall x y,
       getpixel im' x y =
       let p := getpixel im x y in
       RGBA (red p) (green p) (blue p)
            (if rounded_rectangle_covers (0, 0, width im, height im)
                                         radius x y
             then 255 else 0)) /\
  (radius < 0 ->
   run (add_rounded_corners img radius) e s =
   (Raise (Exception "ValueError"), s)).
Proof.
  intros H.
  assert (Hlt : (img < length (heap s))%nat)
    by (eapply lookup_lt_Some; eassumption).
  split; [|intros Hr; apply add_rounded_corners_raise with (im := im);
           assumption].
  intros Hr.
  exists (rounded_value im radius). eexists.
  split; [apply add_rounded_corners_run with (im := im); assumption|].
  cbn [heap trace].
  split; [apply list_lookup_insert_eq; assumption|].
  split; [apply length_insert|].
  split; [intros r Hne; apply list_lookup_insert_ne; congruence|].
  split; [reflexivity|]. split; [reflexivity|].
  intros x y. reflexivity.
Qed.

(** X2. Rounding the corners twice, with radii that are not negative, does
    not intersect the two masks: the second call overwrites the alpha band
    of the first, so the object ends up exactly as if only the second call
    had been made. *)
Theorem add_rounded_corners_last_wins e s img im r1 r2 :
  heap s !! img = Some im -> 0 <= r1 -> 0 <= r2 ->
  exists im12 im2 s12 s2,
    run (add_rounded_corners img r1 ≫=
         fun img' => add_rounded_corners img' r2) e s = (Ok img, s12) /\
    run (add_rounded_corners img r2) e s = (Ok img, s2) /\
    heap s12 !! img = Some im12 /\ heap s2 !! img = Some im2 /\
    im_size im12 = im_size im2 /\
    (forall x y, getpixel im12 x y = getpixel im2 x y) /\
    forall r, heap s12 !! r = heap s2 !! r \/ r = img.
Proof.
  intros H Hr1 Hr2.
  assert (Hlt : (img < length (heap s))%nat)
    by (eapply lookup_lt_Some; eassumption).
  exists (rounded_value (rounded_value im r1) r2), (rounded_value im r2).
  eexists _, _.
  split.
  { erewrite run_bind
      by (apply add_rounded_corners_run with (im := im); assumption).
    apply add_rounded_corners_run; [assumption|]. cbn [heap].
    apply list_lookup_insert_eq. assumption. }
  split; [apply add_rounded_corners_run with (im := im); assumption|].
  cbn [heap].
  split; [apply list_lookup_insert_eq; rewrite length_insert; assumption|].
  split; [apply list_lookup_insert_eq; assumption|].
  split; [reflexivity|]. split; [intros x y; reflexivity|].
  intros r. destruct (decide (r = img)) as [->|Hne]; [right; reflexivity|].
  left. rewrite !list_lookup_insert_ne by congruence. reflexivity.
Qed.

End RoundedCorners.

(** ** The alpha band of the screenshot plays no role *)

Section ScreenshotAlpha.
Context {P : Pillow} `{!PillowSpec P}.



End ScreenshotAlpha.

(** ** What fits on the canvas (lines 44-58) *)

Section Clipping.
Context {P : Pillow}.

(** X4. On the canvas that [make_canvas] builds the frame is never clipped:
    each of its pixels, moved by the paste offset (200, 200 + logo height
    // 2), is inside the canvas.  The logo, pasted at
    (200 + frame width - logo width // 2, 200), is inside the canvas
    exactly when logo width // 2 <= 200 + frame width and
    logo height - logo height // 2 <= frame height + 200; a logo that is
    large next to the frame is cut off on the left or at the bottom. *)
Theorem canvas_clipping e s frame logo_scaled F LS :
  heap s !! frame = Some F -> heap s !! logo_scaled = Some LS ->
  0 <= width F -> 0 <= height F -> 1 <= width LS -> 1 <= height LS ->
  exists canvas C s',
    run (make_canvas frame logo_scaled) e s = (Ok canvas, s') /\
    heap s' !! canvas = Some C /\
    (forall x y, im_inside F x y = true ->
       im_inside C (x + 200) (y + (200 + height LS / 2)) = true) /\
    ((forall x y, im_inside LS x y = true ->
        im_inside C (x + (200 + width F - width LS / 2)) (y + 200) = true)
     <-> width LS / 2 <= 200 + width F /\
         height LS - height LS / 2 <= height F + 200).
Proof.
  intros HF HL HFw HFh HLw HLh.
  exists (length (heap s)), (canvas_value F LS). eexists.
  split; [apply make_canvas_run with (F := F) (LS := LS); assumption|]. cbn [heap].
  split; [apply lookup_snoc_new; reflexivity|].
  assert (Hx : 0 <= width LS / 2) by (apply Z.div_pos; lia).
  assert (Hy : 0 <= height LS / 2) by (apply Z.div_pos; lia).
  pose proof (Z.mul_div_le (width LS) 2 ltac:(lia)).
  pose proof (Z.mul_succ_div_gt (width LS) 2 ltac:(lia)).
  pose proof (Z.mul_div_le (height LS) 2 ltac:(lia)).
  pose proof (Z.mul_succ_div_gt (height LS) 2 ltac:(lia)).
  assert (HCw : width (canvas_value F LS)
                = width F + width LS / 2 + 400) by (cbn; lia).
  assert (HCh : height (canvas_value F LS)
                = height F + height LS / 2 + 400) by (cbn; lia).
  split.
  - intros x y Hin. apply im_inside_iff in Hin. apply im_inside_iff.
    rewrite HCw, HCh. lia.
  - split.
    + intros Hall.
      pose proof (Hall 0 0) as Hfirst.
      pose proof (Hall (width LS - 1) (height LS - 1)) as Hlast.
      specialize (Hfirst ltac:(apply im_inside_iff; lia)).
      specialize (Hlast ltac:(apply im_inside_iff; lia)).
      apply im_inside_iff in Hfirst, Hlast.
      rewrite HCw, HCh in Hfirst, Hlast.
      lia.
    + intros [Hl Hb] x y Hin. apply im_inside_iff in Hin.
      apply im_inside_iff. rewrite HCw, HCh. lia.
Qed.

End Clipping.

(** ** From the inputs to the saved image *)

Section EndToEnd.
Context {P : Pillow} `{!PillowSpec P}.

Lemma logo_scaled_value_fits logo :
  valid_image logo ->
  valid_image (logo_scaled_value logo) /\
  width (logo_scaled_value logo) <= 650 /\
  height (logo_scaled_value logo) <= 650.
Proof.
  intros Hv. pose proof Hv as (Hw & Hh & _).
  split; [apply im_thumbnail_valid; [assumption | lia | lia]|].
  pose proof (im_thumbnail_size logo 650 650) as Hsz.
  unfold logo_scaled_value.
  destruct (preserve_aspect_ratio (im_size logo) (650, 650))
    as [[x' y']|] eqn:E.
  - injection Hsz as Hx Hy. rewrite Hx, Hy.
    apply preserve_aspect_ratio_Some in E as [[? ?] _]; lia.
  - apply preserve_aspect_ratio_None in E as [? ?].
    rewrite im_thumbnail_fits by assumption. lia.
Qed.

Lemma half_bounds n : 0 <= n -> 0 <= n / 2 /\ 2 * (n / 2) <= n <= 2 * (n / 2) + 1.
Proof.
  intros Hn. pose proof (Z.div_pos n 2 Hn ltac:(lia)).
  pose proof (Z.mul_div_le n 2 ltac:(lia)).
  pose proof (Z.mul_succ_div_gt n 2 ltac:(lia)). lia.
Qed.





(** X5. For a screenshot of at least 45 x 45 pixels nothing is cut off:
    whatever the logo, every pixel of the scaled logo lands inside the
    canvas at its paste position
    (200 + screenshot width + 80 - logo width // 2, 200). *)
Theorem logo_never_clipped e a logo :
  fs_open e screenshot_path = inr a -> fs_open e logo_path = inr logo ->
  valid_image a -> valid_image logo ->
  45 <= width a -> 45 <= height a ->
  exists canvas s C,
    run composite e initial = (Ok canvas, s) /\
    heap s !! canvas = Some C /\
    let LS := logo_scaled_value logo in
    forall x y,
      im_inside LS x y = true ->
      im_inside C (x + (200 + (width a + 80) - width LS / 2)) (y + 200)
      = true.
Proof.
  intros Ha Hl Hva Hvl Hw Hh.
  eexists _, _, (composite_value a logo).
  split; [apply composite_run; eassumption|].
  split; [reflexivity|].
  intros LS x y Hin.
  destruct (logo_scaled_value_fits logo Hvl) as ((HLw & HLh & _) & Hfw & Hfh).
  fold LS in HLw, HLh, Hfw, Hfh.
  pose proof (half_bounds (width LS) ltac:(lia)).
  pose proof (half_bounds (height LS) ltac:(lia)).
  apply im_inside_iff in Hin. apply im_inside_iff.
  unfold composite_value. fold LS. cbn. lia.
Qed.







End EndToEnd.

(** ** The order of the effects (lines 70-73) *)

Section Order.
Context {P : Pillow}.

(** X10. On standard output: a run of [combine] that returns normally
    writes exactly one line there, the confirmation line, and that line is
    the last of the run's effects on the file system and on standard
    output, right after the file was saved without an error.  A run that
    raised writes nothing to standard output.  (What the interpreter or
    Pillow write to standard error is not part of the trace.) *)
Theorem print_only_after_save e :
  let tr := trace (run combine e initial).2 in
  ((run combine e initial).1 = Ok tt ->
   printed tr = [message] /\
   fs_save e output_path "PNG" = None /\
   exists before S,
     tr = before ++ [EvSave output_path "PNG" S; EvPrint message]) /\
  ((run combine e initial).1 <> Ok tt -> printed tr = []).
Proof.
  cbv zeta.
  destruct (fs_open e screenshot_path) as [xa|a] eqn:Ha.
  { rewrite (combine_raise_screenshot xa e Ha). cbn [fst snd trace].
    split; [discriminate | reflexivity]. }
  destruct (fs_open e logo_path) as [xl|logo] eqn:Hl.
  { rewrite (combine_raise_logo a xl e Ha Hl). cbn [fst snd trace].
    split; [discriminate | reflexivity]. }
  rewrite (combine_run a logo e Ha Hl).
  destruct (fs_save e output_path "PNG") as [xs|];
    cbn [fst snd trace].
  - split; [discriminate | reflexivity].
  - split; [|intros H; contradiction H; reflexivity].
    intros _. split; [reflexivity|]. split; [reflexivity|].
    exists [EvOpen screenshot_path; EvOpen logo_path].
    eexists. reflexivity.
Qed.

End Order.

(** ** The further properties on the reference implementation *)

Section FurtherOnReference.
Import Reference ReferenceFacts.
#[local] Existing Instance pillow.
#[local] Existing Instance pillow_spec.

Lemma grey45_valid : valid_image grey45.
Proof. repeat split; cbn; lia. Qed.


(** A half-transparent blue logo pixel beside the frame, as it is saved. *)
Example translucent_blue_fades :
  blend_pixel (blend 128 0 128) transparent
    (blend_pixel 128 transparent (RGBA 0 0 200 128)) = RGBA 0 0 25 16.
Proof. reflexivity. Qed.

Lemma add_rounded_corners_in_place_witness :
  heap (mkState [grey2_clear] []) !! 0%nat = Some grey2_clear /\
  0 <= 10 /\ -1 < 0 /\
  (exists im',
     (run (add_rounded_corners 0%nat 10) world (mkState [grey2_clear] [])).1
     = Ok 0%nat /\
     im_size im' = (2, 2) /\ getpixel im' 1 1 = RGBA 90 90 90 255) /\
  run (add_rounded_corners 0%nat (-1)) world (mkState [grey2_clear] [])
  = (Raise (Exception "ValueError"), mkState [grey2_clear] []).
Proof.
  split; [reflexivity|]. split; [lia|]. split; [lia|].
  destruct (add_rounded_corners_in_place world (mkState [grey2_clear] [])
              0%nat grey2_clear 10 eq_refl) as [Hok _].
  destruct (add_rounded_corners_in_place world (mkState [grey2_clear] [])
              0%nat grey2_clear (-1) eq_refl) as [_ Hraise].
  destruct (Hok ltac:(lia))
    as (im' & s' & Hrun & _ & _ & _ & _ & Hsz & Hpx).
  split; [|apply Hraise; lia].
  exists im'. rewrite Hrun, Hsz, Hpx. repeat split; reflexivity.
Defined.

Lemma add_rounded_corners_last_wins_witness :
  heap (mkState [grey2] []) !! 0%nat = Some grey2 /\
  0 <= 1 /\ 0 <= 10 /\
  exists im12 im2,
    im_size im12 = im_size im2 /\ getpixel im12 0 0 = getpixel im2 0 0.
Proof.
  split; [reflexivity|]. split; [lia|]. split; [lia|].
  destruct (add_rounded_corners_last_wins world (mkState [grey2] [])
              0%nat grey2 1 10 eq_refl ltac:(lia) ltac:(lia))
    as (im12 & im2 & s12 & s2 & _ & _ & _ & _ & Hsz & Hpx & _).
  exists im12, im2. exact (conj Hsz (Hpx 0 0)).
Defined.


Lemma canvas_clipping_witness :
  heap (mkState [red4; wide_logo] []) !! 0%nat = Some red4 /\
  heap (mkState [red4; wide_logo] []) !! 1%nat = Some wide_logo /\
  0 <= width red4 /\ 0 <= height red4 /\
  1 <= width wide_logo /\ 1 <= height wide_logo /\
  exists C, im_inside C 203 553 = true /\
            ~ (forall x y, im_inside wide_logo x y = true ->
                 im_inside C (x + (200 + 4 - 1300 / 2)) (y + 200) = true).
Proof.
  do 2 (split; [reflexivity|]). do 4 (split; [cbn; lia|]).
  destruct (canvas_clipping world (mkState [red4; wide_logo] []) 0%nat 1%nat
              red4 wide_logo eq_refl eq_refl)
    as (canvas & C & s' & _ & _ & Hframe & Hlogo); try (cbn; lia).
  exists C. split.
  - apply (Hframe 3 3). reflexivity.
  - intros Hall. apply Hlogo in Hall. destruct Hall as [Hbad _].
    apply Z.leb_le in Hbad. vm_compute in Hbad. discriminate Hbad.
Defined.

Lemma logo_never_clipped_witness :
  fs_open world45 screenshot_path = inr grey45 /\
  fs_open world45 logo_path = inr wide_logo /\
  valid_image grey45 /\ valid_image wide_logo /\
  45 <= width grey45 /\ 45 <= height grey45 /\
  exists canvas s C,
    run composite world45 initial = (Ok canvas, s) /\
    heap s !! canvas = Some C.
Proof.
  do 2 (split; [reflexivity|]).
  split; [exact grey45_valid|]. split; [exact wide_logo_valid|].
  do 2 (split; [cbn; lia|]).
  destruct (logo_never_clipped world45 grey45 wide_logo eq_refl eq_refl
              grey45_valid wide_logo_valid)
    as (canvas & s & C & Hrun & HC & _); try (cbn; lia).
  exists canvas, s, C. exact (conj Hrun HC).
Defined.





Lemma print_only_after_save_witness :
  printed (trace (run combine world initial).2) = [message] /\
  fs_save world output_path "PNG" = None /\
  ((run combine world_no_logo initial).1 <> Ok tt /\
   printed (trace (run combine world_no_logo initial).2) = []).
Proof.
  destruct (print_only_after_save world) as [Hok _].
  destruct Hok as (Hp & Hs & _); [rewrite combine_on_world; reflexivity|].
  split; [exact Hp|]. split; [exact Hs|].
  assert (Hr : (run combine world_no_logo initial).1 <> Ok tt).
  { rewrite (combine_raise_logo grey2 (Exception "FileNotFoundError")
               world_no_logo eq_refl eq_refl).
    cbn [fst]. discriminate. }
  split; [exact Hr|].
  exact (proj2 (print_only_after_save world_no_logo) Hr).
Defined.

Lemma combine_keeps_logo_witness :
  fs_open world screenshot_path = inr grey2 /\
  fs_open world logo_path = inr red4 /\
  heap (run combine world initial).2 !! 1%nat = Some red4.
Proof.
  do 2 (split; [reflexivity|]).
  exact (proj1 (combine_keeps_logo world grey2 red4 eq_refl eq_refl)).
Defined.

End FurtherOnReference.
